(** * music_player.py: a shallow embedding of the player's controller

    The program is a Tkinter front end over pydub: four module-level
    globals, four widgets that the callbacks touch, three button callbacks,
    one slider callback and one background thread body.  The embedding keeps
    the globals and the widgets in a record, threads that record through
    every callback, and records what each callback does to the outside world
    (dialogs, [os.system], thread starts, [root.after]) in a trace whose
    entries carry the thread that performed them.

    pydub and Tk are outside the repository.  What the controller needs from
    them is taken as a parameter: the buffer type, [AudioSegment.from_file],
    [AudioSegment.__add__] and [os.name]. *)

From Stdlib Require Import String Ascii List ZArith Bool Lia.
From Stdlib Require Import DecimalString DecimalPos DecimalN.
Import ListNotations.

Local Open Scope string_scope.
Local Open Scope list_scope.
Local Open Scope Z_scope.

(** ** Python string operations used by [load_file] *)

Module PyStr.

(** [s.split(sep)] for a one-character separator: the pieces between the
    occurrences of [sep], one more piece than there are occurrences.
    Paths are held as bytes; "/" and "\" are ASCII and no byte of a
    multi-byte UTF-8 sequence equals either, so splitting bytes and
    splitting code points cut at the same places. *)
Fixpoint split (sep : ascii) (s : string) : list string :=
  match s with
  | EmptyString => [EmptyString]
  | String c rest =>
      if Ascii.eqb c sep then EmptyString :: split sep rest
      else match split sep rest with
           | [] => [String c EmptyString]
           | piece :: pieces => String c piece :: pieces
           end
  end.

(** [l[-1]]: [None] stands for the IndexError of an empty list. *)
Fixpoint last_item {A : Type} (l : list A) : option A :=
  match l with
  | [] => None
  | [x] => Some x
  | _ :: tl => last_item tl
  end.

(** [file_path.split("/")[-1].split("\\")[-1]] *)
Definition basename (file_path : string) : option string :=
  match last_item (split "/" file_path) with
  | None => None
  | Some tail => last_item (split "\" tail)
  end.

(** [c in s] *)
Fixpoint contains (c : ascii) (s : string) : bool :=
  match s with
  | EmptyString => false
  | String d rest => Ascii.eqb d c || contains c rest
  end.

(** The reading of the file name in words: the substring after the final
    occurrence of [sep], and the whole string when [sep] does not occur. *)
Fixpoint after_last (sep : ascii) (s : string) : string :=
  match s with
  | EmptyString => EmptyString
  | String c rest =>
      if contains sep rest then after_last sep rest
      else if Ascii.eqb c sep then rest
      else String c rest
  end.

Definition last_component (file_path : string) : string :=
  after_last "\" (after_last "/" file_path).

(** The directory part: empty, or a string whose last character is one
    of the two separators. *)
Definition is_directory_prefix (dir : string) : Prop :=
  dir = EmptyString
  \/ exists d, dir = (d ++ "/")%string \/ dir = (d ++ "\")%string.

(** [f"{n:+d}"]: the decimal digits of [n] behind an explicit sign. *)
Definition format_plus_d (n : Z) : string :=
  String.append (if Z.ltb n 0 then "-" else "+")
                (NilZero.string_of_uint (N.to_uint (Z.abs_N n))).

Definition nl : string := String (ascii_of_nat 10) EmptyString.

(** [sep.join(pieces)] *)
Fixpoint join (sep : ascii) (pieces : list string) : string :=
  match pieces with
  | [] => EmptyString
  | [piece] => piece
  | piece :: rest => (piece ++ String sep (join sep rest))%string
  end.

(** [s.count(c)] *)
Fixpoint count (c : ascii) (s : string) : nat :=
  match s with
  | EmptyString => 0%nat
  | String d rest => ((if Ascii.eqb d c then 1 else 0) + count c rest)%nat
  end.

(** Neither "/" nor "\" occurs in the string. *)
Definition bare_name (name : string) : Prop :=
  contains "/" name = false /\ contains "\" name = false.

End PyStr.

(** ** The controller *)

Module Player.

(** A call either returns or raises; [Raise] carries [str(e)]. *)
Inductive result (A : Type) : Type :=
| Ok (a : A)
| Raise (msg : string).
Arguments Ok {A} a.
Arguments Raise {A} msg.

(** The thread a piece of code runs on: Tk's main loop, or the thread
    started by [play_audio]. *)
Inductive Ctx : Type := EventLoop | Background.

Inductive Dialog : Type :=
| ShowError (title message : string)
| ShowWarning (title message : string).

(** The one function handed to [root.after]:
    [lambda: label_status.config(text=...)]. *)
Inductive Callback : Type :=
| ConfigStatus (text : string).

(** How [pydub.playback.play] ended; the thread body swallows both. *)
Inductive PlayOutcome : Type :=
| Returned
| Raised (msg : string).

Definition STATUS_READY : string := "Status: Siap".
Definition STATUS_PLAYING : string := "Status: Sedang Memutar...".
Definition STATUS_STOPPED : string := "Status: Dihentikan".
Definition STATUS_FINISHED : string := "Status: Selesai".
Definition NO_FILE : string := "File: Belum ada file dipilih".
Definition WARN_TITLE : string := "Peringatan".
Definition WARN_TEXT : string :=
  ("Belum ada file yang dimuat!" ++ PyStr.nl
     ++ "Klik 'Load File' terlebih dahulu.")%string.
Definition ERR_TITLE : string := "Error".
Definition err_text (e : string) : string :=
  ("Gagal memuat file:" ++ PyStr.nl ++ e)%string.
Definition INDEX_ERROR : string := "list index out of range".

(** [from_=-20, to=10]: Tk keeps a Scale's value between its two ends. *)
Definition SLIDER_FROM : Z := -20.
Definition SLIDER_TO : Z := 10.
Definition scale_clamp (v : Z) : Z := Z.max SLIDER_FROM (Z.min SLIDER_TO v).

Inductive PlaybackState : Type := Idle | Playing | Ended.

Section Controller.

(** pydub's [AudioSegment], its constructor from a file, and its [+]
    with a number of decibels. *)
Variable Buffer : Type.
Variable from_file : string -> result Buffer.
Variable apply_gain : Buffer -> Z -> Buffer.
(** [os.name] *)
Variable os_name : string.

(** An assignment to one global or one widget option. *)
Inductive Write : Type :=
| W_audio_segment (seg : Buffer)
| W_current_file_name (name : string)
| W_is_playing (flag : bool)
| W_play_thread (tid : nat)
| W_label_file_name (text : string)
| W_label_status (text : string)
| W_label_volume_value (text : string)
| W_volume_slider (v : Z).

Inductive Action : Type :=
| AWrite (w : Write)
| ADialog (d : Dialog)
| AOsSystem (cmd : string)
| AThreadStart (tid : nat) (audio : Buffer)
| APlay (audio : Buffer) (o : PlayOutcome)
| AAfter (cb : Callback).

Record State : Type := mkState {
  (* module globals *)
  audio_segment : option Buffer;
  current_file_name : option string;
  is_playing : bool;
  play_thread : option nat;
  (* widgets *)
  label_file_name : string;
  label_status : string;
  label_volume_value : string;
  volume_slider : Z;
  (* the runtime around them *)
  threads : list (nat * Buffer);  (* live background threads and their argument *)
  next_tid : nat;
  after_queue : list Callback;    (* callbacks posted with root.after, oldest first *)
  trace : list (Ctx * Action)
}.

(** Module load: the globals at lines 24-27 and the widgets as built at
    lines 179-241. *)
Definition init : State :=
  {| audio_segment := None; current_file_name := None;
     is_playing := false; play_thread := None;
     label_file_name := NO_FILE; label_status := STATUS_READY;
     label_volume_value := "+0 dB"; volume_slider := 0;
     threads := []; next_tid := 0%nat; after_queue := []; trace := [] |}.

Definition apply_write (w : Write) (s : State) : State :=
  match w with
  | W_audio_segment seg =>
      mkState (Some seg) (current_file_name s) (is_playing s) (play_thread s)
        (label_file_name s) (label_status s) (label_volume_value s)
        (volume_slider s) (threads s) (next_tid s) (after_queue s) (trace s)
  | W_current_file_name name =>
      mkState (audio_segment s) (Some name) (is_playing s) (play_thread s)
        (label_file_name s) (label_status s) (label_volume_value s)
        (volume_slider s) (threads s) (next_tid s) (after_queue s) (trace s)
  | W_is_playing flag =>
      mkState (audio_segment s) (current_file_name s) flag (play_thread s)
        (label_file_name s) (label_status s) (label_volume_value s)
        (volume_slider s) (threads s) (next_tid s) (after_queue s) (trace s)
  | W_play_thread tid =>
      mkState (audio_segment s) (current_file_name s) (is_playing s) (Some tid)
        (label_file_name s) (label_status s) (label_volume_value s)
        (volume_slider s) (threads s) (next_tid s) (after_queue s) (trace s)
  | W_label_file_name text =>
      mkState (audio_segment s) (current_file_name s) (is_playing s) (play_thread s)
        text (label_status s) (label_volume_value s)
        (volume_slider s) (threads s) (next_tid s) (after_queue s) (trace s)
  | W_label_status text =>
      mkState (audio_segment s) (current_file_name s) (is_playing s) (play_thread s)
        (label_file_name s) text (label_volume_value s)
        (volume_slider s) (threads s) (next_tid s) (after_queue s) (trace s)
  | W_label_volume_value text =>
      mkState (audio_segment s) (current_file_name s) (is_playing s) (play_thread s)
        (label_file_name s) (label_status s) text
        (volume_slider s) (threads s) (next_tid s) (after_queue s) (trace s)
  | W_volume_slider v =>
      mkState (audio_segment s) (current_file_name s) (is_playing s) (play_thread s)
        (label_file_name s) (label_status s) (label_volume_value s)
        v (threads s) (next_tid s) (after_queue s) (trace s)
  end.

Definition set_runtime (ths : list (nat * Buffer)) (n : nat)
    (q : list Callback) (s : State) : State :=
  mkState (audio_segment s) (current_file_name s) (is_playing s) (play_thread s)
    (label_file_name s) (label_status s) (label_volume_value s)
    (volume_slider s) ths n q (trace s).

Definition set_trace (t : list (Ctx * Action)) (s : State) : State :=
  mkState (audio_segment s) (current_file_name s) (is_playing s) (play_thread s)
    (label_file_name s) (label_status s) (label_volume_value s)
    (volume_slider s) (threads s) (next_tid s) (after_queue s) t.

(** Does the assignment touch a Tk widget? *)
Definition is_widget_write (w : Write) : bool :=
  match w with
  | W_label_file_name _ | W_label_status _
  | W_label_volume_value _ | W_volume_slider _ => true
  | _ => false
  end.

(** [os.system] argument chosen at lines 132-135. *)
Definition kill_command : string :=
  if (os_name =? "nt")%string
  then "taskkill /f /im ffplay.exe >nul 2>&1"
  else "pkill -f ffplay 2>/dev/null".

(** *** The callbacks, as run by the thread [ctx] *)
Section Exec.

Variable ctx : Ctx.

Definition log (a : Action) (s : State) : State :=
  set_trace (trace s ++ [(ctx, a)]) s.

Definition write (w : Write) (s : State) : State :=
  log (AWrite w) (apply_write w s).

(** [root.after(0, cb)] *)
Definition root_after (cb : Callback) (s : State) : State :=
  log (AAfter cb)
      (set_runtime (threads s) (next_tid s) (after_queue s ++ [cb]) s).

(** [threading.Thread(target=_play_in_thread, args=(audio,)).start()] *)
Definition thread_start (audio : Buffer) (s : State) : State :=
  let tid := next_tid s in
  let s1 := write (W_play_thread tid) s in
  log (AThreadStart tid audio)
      (set_runtime (threads s1 ++ [(tid, audio)]) (S tid) (after_queue s1) s1).

(** [load_file], lines 36-64; [file_path] is what the file dialog
    returned, empty when the user cancelled. *)
Definition load_file (file_path : string) (s : State) : State :=
  if (file_path =? EmptyString)%string then s
  else
    match from_file file_path with
    | Raise e => log (ADialog (ShowError ERR_TITLE (err_text e))) s
    | Ok seg =>
        let s1 := write (W_audio_segment seg) s in
        match PyStr.basename file_path with
        | None =>
            log (ADialog (ShowError ERR_TITLE (err_text INDEX_ERROR))) s1
        | Some name =>
            let s2 := write (W_current_file_name name) s1 in
            let s3 := write (W_label_file_name ("File: " ++ name)%string) s2 in
            write (W_volume_slider 0) s3
        end
    end.

(** [stop_audio], lines 115-137.  [os.system] returns an exit status;
    whatever the kill does, the callback goes on the same way. *)
Definition stop_audio (s : State) : State :=
  if negb (is_playing s) then s
  else
    let s1 := write (W_is_playing false) s in
    let s2 := write (W_label_status STATUS_STOPPED) s1 in
    log (AOsSystem kill_command) s2.

(** [play_audio], lines 72-94. *)
Definition play_audio (s : State) : State :=
  match audio_segment s with
  | None => log (ADialog (ShowWarning WARN_TITLE WARN_TEXT)) s
  | Some _ =>
      let s1 := if is_playing s then stop_audio s else s in
      let volume_db := volume_slider s1 in
      match audio_segment s1 with
      | None => s1 (* None + int is a TypeError; see [stop_audio_keeps_track] *)
      | Some seg =>
          let adjusted_audio := apply_gain seg volume_db in
          let s2 := write (W_is_playing true) s1 in
          let s3 := write (W_label_status STATUS_PLAYING) s2 in
          thread_start adjusted_audio s3
      end
  end.

(** [_play_in_thread], lines 97-107: [o] is how [play(audio)] ended;
    the [finally] block runs in both cases. *)
Definition _play_in_thread (audio : Buffer) (o : PlayOutcome)
    (s : State) : State :=
  let s1 := log (APlay audio o) s in
  let s2 := write (W_is_playing false) s1 in
  root_after (ConfigStatus STATUS_FINISHED) s2.

(** [update_volume], lines 145-147; the slider's resolution is 1, so
    [int(float(value))] is the value itself. *)
Definition update_volume (value : Z) (s : State) : State :=
  let db_value := value in
  write (W_label_volume_value (PyStr.format_plus_d db_value ++ " dB")%string) s.

Definition run_callback (cb : Callback) (s : State) : State :=
  match cb with
  | ConfigStatus text => write (W_label_status text) s
  end.

End Exec.

(** *** The application as a whole *)

Inductive Event : Type :=
| ClickLoad (file_path : string)  (* Load File pressed, dialog answered *)
| ClickPlay
| ClickStop
| Slide (v : Z)                   (* the user drags the slider to v *)
| ThreadEnd (tid : nat) (o : PlayOutcome)  (* play() ends in thread tid *)
| LoopIdle.                       (* the main loop runs the oldest posted callback *)

Fixpoint find_thread (tid : nat) (ths : list (nat * Buffer)) : option Buffer :=
  match ths with
  | [] => None
  | (t, audio) :: rest => if Nat.eqb t tid then Some audio else find_thread tid rest
  end.

Definition drop_thread (tid : nat) (ths : list (nat * Buffer)) : list (nat * Buffer) :=
  filter (fun th => negb (Nat.eqb (fst th) tid)) ths.

Definition step (e : Event) (s : State) : State :=
  match e with
  | ClickLoad file_path => load_file EventLoop file_path s
  | ClickPlay => play_audio EventLoop s
  | ClickStop => stop_audio EventLoop s
  | Slide v =>
      let v' := scale_clamp v in
      update_volume EventLoop v' (write EventLoop (W_volume_slider v') s)
  | ThreadEnd tid o =>
      match find_thread tid (threads s) with
      | None => s
      | Some audio =>
          _play_in_thread Background audio o
            (set_runtime (drop_thread tid (threads s)) (next_tid s) (after_queue s) s)
      end
  | LoopIdle =>
      match after_queue s with
      | [] => s
      | cb :: q =>
          run_callback EventLoop cb (set_runtime (threads s) (next_tid s) q s)
      end
  end.

Definition run (evs : list Event) (s : State) : State :=
  fold_left (fun acc e => step e acc) evs s.

(** The three-valued state of the specification ({Idle, Playing,
    Stopped/Finished}), read off the flag and the status label, which is
    all the code keeps. *)
Definition playback_state (s : State) : PlaybackState :=
  if is_playing s then Playing
  else if (label_status s =? STATUS_READY)%string then Idle
  else Ended.

(** *** Observations on traces *)

(** Number of [os.system] calls recorded. *)
Fixpoint count_kills (t : list (Ctx * Action)) : nat :=
  match t with
  | [] => 0%nat
  | (_, AOsSystem _) :: rest => S (count_kills rest)
  | _ :: rest => count_kills rest
  end.

(** What the background thread is seen to do: call [play], clear the
    flag, post the status update.  Nothing is asked of the main loop. *)
Definition background_discipline (e : Ctx * Action) : bool :=
  match e with
  | (EventLoop, _) => true
  | (Background, APlay _ _) => true
  | (Background, AWrite (W_is_playing false)) => true
  | (Background, AAfter (ConfigStatus text)) => (text =? STATUS_FINISHED)%string
  | (Background, _) => false
  end.

(** Whatever is assigned to a widget is assigned by the main loop. *)
Definition widget_on_loop (e : Ctx * Action) : bool :=
  match e with
  | (Background, AWrite w) => negb (is_widget_write w)
  | _ => true
  end.

(** The entry is not an assignment made by the background thread. *)
Definition no_background_write (e : Ctx * Action) : Prop :=
  match e with
  | (Background, AWrite _) => False
  | _ => True
  end.

(** If the entry starts a thread, the thread gets [audio]. *)
Definition starts_with (audio : Buffer) (e : Ctx * Action) : Prop :=
  match e with
  | (_, AThreadStart _ b) => b = audio
  | _ => True
  end.

(** Events that neither load a file nor move the slider. *)
Definition keeps_track_and_gain (e : Event) : bool :=
  match e with
  | ClickLoad _ | Slide _ => false
  | _ => true
  end.

(** Nothing has been played yet: the state of the controller before the
    first successful load. *)
Definition never_played (s : State) : Prop :=
  is_playing s = false
  /\ label_status s = STATUS_READY
  /\ label_file_name s = NO_FILE
  /\ play_thread s = None
  /\ threads s = []
  /\ after_queue s = [].

(** *** Shapes kept by every run *)

(** Number of thread starts recorded. *)
Fixpoint count_starts (t : list (Ctx * Action)) : nat :=
  match t with
  | [] => 0%nat
  | (_, AThreadStart _ _) :: rest => S (count_starts rest)
  | _ :: rest => count_starts rest
  end.

Definition is_dialog (e : Ctx * Action) : bool :=
  match e with
  | (_, ADialog _) => true
  | _ => false
  end.

Definition is_warning (e : Ctx * Action) : bool :=
  match e with
  | (_, ADialog (ShowWarning _ _)) => true
  | _ => false
  end.

Definition in_slider_range (v : Z) : Prop := SLIDER_FROM <= v <= SLIDER_TO.

(** A decoded file with one gain from the slider's range applied to it. *)
Definition decoded_with_gain (b : Buffer) : Prop :=
  exists file_path seg db,
    from_file file_path = Ok seg /\ in_slider_range db /\ b = apply_gain seg db.

(** The buffer of a thread start or of a [play] call satisfies [P]. *)
Definition renders (P : Buffer -> Prop) (e : Ctx * Action) : Prop :=
  match e with
  | (_, AThreadStart _ b) => P b
  | (_, APlay b _) => P b
  | _ => True
  end.

(** A dialog is shown by the main loop, and is either the Play warning or
    the report of an exception that [from_file] raised. *)
Definition dialog_justified (e : Ctx * Action) : Prop :=
  match e with
  | (ctx, ADialog d) =>
      ctx = EventLoop
      /\ (d = ShowWarning WARN_TITLE WARN_TEXT
          \/ exists file_path err,
               from_file file_path = Raise err
               /\ d = ShowError ERR_TITLE (err_text err))
  | _ => True
  end.

(** The text of the file label for a stored name. *)
Definition file_label_of (name : option string) : string :=
  match name with
  | None => NO_FILE
  | Some n => ("File: " ++ n)%string
  end.

Definition files_consistent (s : State) : Prop :=
  label_file_name s = file_label_of (current_file_name s)
  /\ (audio_segment s = None <-> current_file_name s = None)
  /\ (forall name, current_file_name s = Some name -> PyStr.bare_name name).

Definition known_status (text : string) : bool :=
  (text =? STATUS_READY)%string || (text =? STATUS_PLAYING)%string
  || (text =? STATUS_STOPPED)%string || (text =? STATUS_FINISHED)%string.

Definition posts_finished (cb : Callback) : bool :=
  match cb with
  | ConfigStatus text => (text =? STATUS_FINISHED)%string
  end.

Definition status_sound (s : State) : Prop :=
  known_status (label_status s) = true
  /\ forallb posts_finished (after_queue s) = true
  /\ (label_status s = STATUS_READY \/ label_status s = STATUS_STOPPED ->
      is_playing s = false)
  /\ (is_playing s = true -> audio_segment s <> None).

(** Thread identifiers in use are below the next one to be given out. *)
Definition threads_fresh (s : State) : Prop :=
  Forall (fun th => (fst th < next_tid s)%nat) (threads s).

(** What holds of the buffers at every moment of a run. *)
Definition render_invariant (s : State) : Prop :=
  in_slider_range (volume_slider s)
  /\ (forall seg, audio_segment s = Some seg ->
        exists file_path, from_file file_path = Ok seg)
  /\ Forall (fun th => decoded_with_gain (snd th)) (threads s)
  /\ Forall (renders decoded_with_gain) (trace s).

(** *** Two sentences of the specification, as they are written *)

(** "On success: replaces LoadedTrack, resets GainSetting to 0,
    transitions to Idle, updates displayed file name", at every state
    the application can reach. *)
Definition load_success_as_specified : Prop :=
  forall (evs : list Event) (file_path : string) (seg : Buffer),
    file_path <> EmptyString ->
    from_file file_path = Ok seg ->
    let s' := load_file EventLoop file_path (run evs init) in
    audio_segment s' = Some seg
    /\ volume_slider s' = 0
    /\ playback_state s' = Idle
    /\ label_file_name s'
       = ("File: " ++ PyStr.last_component file_path)%string.

(** "the only mutation from the background side is the terminal status
    flip, marshaled back onto the event loop rather than applied
    directly": in no run does the background thread assign anything
    itself. *)
Definition background_marshals_everything : Prop :=
  forall evs : list Event,
    Forall no_background_write (trace (run evs init)).

End Controller.

Arguments audio_segment {Buffer} s.
Arguments current_file_name {Buffer} s.
Arguments is_playing {Buffer} s.
Arguments play_thread {Buffer} s.
Arguments label_file_name {Buffer} s.
Arguments label_status {Buffer} s.
Arguments label_volume_value {Buffer} s.
Arguments volume_slider {Buffer} s.
Arguments threads {Buffer} s.
Arguments next_tid {Buffer} s.
Arguments after_queue {Buffer} s.
Arguments trace {Buffer} s.
Arguments W_audio_segment {Buffer} seg.
Arguments W_current_file_name {Buffer} name.
Arguments W_is_playing {Buffer} flag.
Arguments W_play_thread {Buffer} tid.
Arguments W_label_file_name {Buffer} text.
Arguments W_label_status {Buffer} text.
Arguments W_label_volume_value {Buffer} text.
Arguments W_volume_slider {Buffer} v.
Arguments AWrite {Buffer} w.
Arguments ADialog {Buffer} d.
Arguments AOsSystem {Buffer} cmd.
Arguments AThreadStart {Buffer} tid audio.
Arguments APlay {Buffer} audio o.
Arguments AAfter {Buffer} cb.
Arguments playback_state {Buffer} s.
Arguments count_kills {Buffer} t.
Arguments background_discipline {Buffer} e.
Arguments is_widget_write {Buffer} w.
Arguments widget_on_loop {Buffer} e.
Arguments no_background_write {Buffer} e.
Arguments starts_with {Buffer} audio e.
Arguments find_thread {Buffer} tid ths.
Arguments drop_thread {Buffer} tid ths.
Arguments never_played {Buffer} s.
Arguments count_starts {Buffer} t.
Arguments is_dialog {Buffer} e.
Arguments is_warning {Buffer} e.
Arguments renders {Buffer} P e.
Arguments files_consistent {Buffer} s.
Arguments status_sound {Buffer} s.
Arguments threads_fresh {Buffer} s.
Arguments set_runtime {Buffer} ths n q s.
Arguments root_after {Buffer} ctx cb s.
Arguments thread_start {Buffer} ctx audio s.
Arguments log {Buffer} ctx a s.
Arguments write {Buffer} ctx w s.
Arguments load_file {Buffer} from_file ctx file_path s.
Arguments stop_audio {Buffer} os_name ctx s.
Arguments play_audio {Buffer} apply_gain os_name ctx s.
Arguments _play_in_thread {Buffer} ctx audio o s.
Arguments update_volume {Buffer} ctx value s.
Arguments run_callback {Buffer} ctx cb s.
Arguments step {Buffer} from_file apply_gain os_name e s.
Arguments run {Buffer} from_file apply_gain os_name evs s.

End Player.

(** ** A concrete back end for running the model

    Buffers are terms recording how they were obtained, so that two buffers
    are equal only when they were decoded from the same file and went through
    the same gains in the same order. *)

Module Demo.

Import Player.

Inductive Audio : Type :=
| Decoded (path : string)
| Gained (a : Audio) (db : Z).

(** Every path decodes, except those under /nonexistent/. *)
Definition from_file (path : string) : result Audio :=
  if String.prefix "/nonexistent/" path
  then Raise ("[Errno 2] No such file or directory: " ++ path)%string
  else Ok (Decoded path).

Definition os_name : string := "posix".

Definition step : Event -> State Audio -> State Audio :=
  Player.step from_file Gained os_name.

Definition run : list Event -> State Audio -> State Audio :=
  Player.run from_file Gained os_name.

Definition start : State Audio := init Audio.

Definition SONG : string := "/home/user/Music/song.mp3".
Definition OTHER : string := "C:\Users\user\Music\other.wav".
Definition MISSING : string := "/nonexistent/lost.mp3".

(** song.mp3 loaded; then the slider dragged to -10 and Play pressed. *)
Definition loaded : State Audio := run [ClickLoad SONG] start.
Definition playing : State Audio := run [Slide (-10); ClickPlay] loaded.

End Demo.

(** * Properties *)

(** ** File names *)

Module PyStrFacts.

Import PyStr.

Lemma split_nonempty (sep : ascii) (s : string) : split sep s <> [].
Proof.
  destruct s as [|c rest]; simpl; [discriminate|].
  destruct (Ascii.eqb c sep); [discriminate|].
  destruct (split sep rest); discriminate.
Qed.

Lemma split_without_sep (sep : ascii) (s : string) :
  contains sep s = false -> split sep s = [s].
Proof.
  induction s as [|c rest IH]; simpl; intros H; [reflexivity|].
  apply orb_false_iff in H as [Hc Hrest].
  rewrite Hc, (IH Hrest). reflexivity.
Qed.

Lemma split_with_sep (sep : ascii) (s : string) :
  contains sep s = true ->
  exists p q qs, split sep s = p :: q :: qs.
Proof.
  induction s as [|c rest IH]; simpl; intros H; [discriminate|].
  destruct (Ascii.eqb c sep) eqn:Hc.
  - destruct (split sep rest) as [|q qs] eqn:Hs.
    + now apply split_nonempty in Hs.
    + now exists EmptyString, q, qs.
  - simpl in H. destruct (IH H) as (p & q & qs & ->).
    now exists (String c p), q, qs.
Qed.

Lemma after_last_without_sep (sep : ascii) (s : string) :
  contains sep s = false -> after_last sep s = s.
Proof.
  destruct s as [|c rest]; simpl; intros H; [reflexivity|].
  apply orb_false_iff in H as [Hc Hrest].
  now rewrite Hrest, Hc.
Qed.

(** Python's [split(sep)[-1]] is the substring after the final [sep]. *)
Lemma last_item_split (sep : ascii) (s : string) :
  last_item (split sep s) = Some (after_last sep s).
Proof.
  induction s as [|c rest IH]; [reflexivity|].
  cbn [split after_last].
  destruct (contains sep rest) eqn:Hin.
  - destruct (split_with_sep sep rest Hin) as (p & q & qs & Hs).
    rewrite Hs in *. destruct (Ascii.eqb c sep); exact IH.
  - rewrite (split_without_sep sep rest Hin).
    destruct (Ascii.eqb c sep); reflexivity.
Qed.

Lemma basename_last_component (file_path : string) :
  basename file_path = Some (last_component file_path).
Proof.
  unfold basename, last_component.
  rewrite last_item_split. apply last_item_split.
Qed.

Lemma after_last_free (sep : ascii) (s : string) :
  contains sep (after_last sep s) = false.
Proof.
  induction s as [|c rest IH]; [reflexivity|].
  cbn [after_last].
  destruct (contains sep rest) eqn:Hin; [exact IH|].
  destruct (Ascii.eqb c sep) eqn:Hc; [exact Hin|].
  simpl. now rewrite Hc, Hin.
Qed.

(** Cutting at one separator brings in no character that was not there. *)
Lemma after_last_contains (sep c : ascii) (s : string) :
  contains c s = false -> contains c (after_last sep s) = false.
Proof.
  induction s as [|d rest IH]; [reflexivity|].
  cbn [after_last contains]. intros H.
  apply orb_false_iff in H as [Hd Hrest].
  destruct (contains sep rest); [now apply IH|].
  destruct (Ascii.eqb d sep); [exact Hrest|].
  simpl. now rewrite Hd, Hrest.
Qed.

(** The cut is a suffix, and what precedes it is empty or ends in [sep]. *)
Lemma after_last_suffix (sep : ascii) (s : string) :
  after_last sep s = s
  \/ exists dir, s = (dir ++ String sep (after_last sep s))%string.
Proof.
  induction s as [|c rest IH]; [now left|].
  cbn [after_last].
  destruct (contains sep rest) eqn:Hin.
  - right. destruct IH as [Heq | [dir Hdir]].
    + pose proof (after_last_free sep rest) as Hfree.
      rewrite Heq, Hin in Hfree. discriminate.
    + exists (String c dir). simpl. now rewrite <- Hdir.
  - destruct (Ascii.eqb c sep) eqn:Hc; [right | now left].
    apply Ascii.eqb_eq in Hc. subst c. now exists EmptyString.
Qed.

Lemma last_component_free (file_path : string) :
  contains "/" (last_component file_path) = false
  /\ contains "\" (last_component file_path) = false.
Proof.
  unfold last_component. split.
  - apply after_last_contains, after_last_free.
  - apply after_last_free.
Qed.

Lemma append_assoc (a b c : string) :
  ((a ++ b) ++ c)%string = (a ++ (b ++ c))%string.
Proof.
  induction a as [|x a IH]; simpl; [reflexivity | now rewrite IH].
Qed.

Lemma last_component_suffix (file_path : string) :
  exists dir,
    file_path = (dir ++ last_component file_path)%string
    /\ is_directory_prefix dir.
Proof.
  unfold last_component.
  destruct (after_last_suffix "/" file_path) as [H1 | [d1 H1]];
    destruct (after_last_suffix "\" (after_last "/" file_path))
      as [H2 | [d2 H2]].
  - exists EmptyString. split; [now rewrite H2, H1 | now left].
  - exists (d2 ++ "\")%string. split.
    + rewrite append_assoc. simpl. now rewrite <- H2.
    + right. exists d2. now right.
  - exists (d1 ++ "/")%string. split.
    + rewrite append_assoc, H2. exact H1.
    + right. exists d1. now left.
  - exists ((d1 ++ "/") ++ (d2 ++ "\"))%string. split.
    + remember (after_last "/" file_path) as tail eqn:Etail.
      remember (after_last "\" tail) as name eqn:Ename.
      clear Etail Ename. subst tail file_path.
      rewrite !append_assoc. reflexivity.
    + right. exists ((d1 ++ "/") ++ d2)%string. right.
      now rewrite !append_assoc.
Qed.

End PyStrFacts.

(** ** The controller *)

Module PlayerFacts.

Import PyStr PyStrFacts Player.

(** Reduce the record plumbing, and nothing else, in the goal. *)
Ltac unfold_player :=
  cbn [Player.root_after Player.thread_start Player.write Player.log
       Player.set_trace Player.set_runtime Player.apply_write
       Player.run_callback Player.update_volume Player._play_in_thread
       Player.audio_segment Player.current_file_name Player.is_playing
       Player.play_thread Player.label_file_name Player.label_status
       Player.label_volume_value Player.volume_slider Player.threads
       Player.next_tid Player.after_queue Player.trace].

Section Facts.

Variable Buffer : Type.
Variable from_file : string -> result Buffer.
Variable apply_gain : Buffer -> Z -> Buffer.
Variable os_name : string.

Implicit Types (s : State Buffer) (ctx : Ctx) (seg : Buffer).

Local Abbreviation load_file := (Player.load_file from_file).
Local Abbreviation stop_audio := (Player.stop_audio os_name).
Local Abbreviation play_audio := (Player.play_audio apply_gain os_name).
Local Abbreviation step := (Player.step from_file apply_gain os_name).
Local Abbreviation run := (Player.run from_file apply_gain os_name).
Local Abbreviation init := (Player.init Buffer).
Local Abbreviation kill_command := (Player.kill_command os_name).

(** *** Loading *)

Lemma load_file_cancelled ctx s : load_file ctx EmptyString s = s.
Proof. reflexivity. Qed.

Lemma load_file_ok ctx s file_path seg :
  file_path <> EmptyString ->
  from_file file_path = Ok seg ->
  load_file ctx file_path s
  = write ctx (W_volume_slider 0)
      (write ctx (W_label_file_name ("File: " ++ last_component file_path)%string)
         (write ctx (W_current_file_name (last_component file_path))
            (write ctx (W_audio_segment seg) s))).
Proof.
  intros Hne Hok. unfold Player.load_file.
  apply String.eqb_neq in Hne. rewrite Hne, Hok.
  now rewrite basename_last_component.
Qed.

(** The [except] branch can only be entered from [from_file]: the two
    indexings [[-1]] never raise. *)
Lemma load_file_error_only_from_decoder ctx s file_path d :
  In (ctx, ADialog d) (trace (load_file ctx file_path s)) ->
  In (ctx, ADialog d) (trace s)
  \/ exists e, from_file file_path = Raise e
               /\ d = ShowError ERR_TITLE (err_text e).
Proof.
  unfold Player.load_file.
  destruct (file_path =? EmptyString)%string; [now left|].
  destruct (from_file file_path) as [seg|e].
  - rewrite basename_last_component. unfold_player. simpl.
    rewrite <- !app_assoc. intros H. apply in_app_or in H as [H|H].
    + now left.
    + simpl in H. repeat (destruct H as [H|H]; [discriminate|]).
      destruct H.
  - unfold_player. simpl. intros H. apply in_app_or in H as [H|H].
    + now left.
    + right. exists e. split; [reflexivity|].
      destruct H as [H|[]]. now inversion H.
Qed.

(** C1 (as amended): a successful load replaces the stored buffer,
    stores and displays the new file's base name and resets the gain
    slider to 0; the playing flag, the status label and with them the
    playback state are left as they were, and no thread or pending
    callback is touched. *)
Theorem load_success_effects ctx s file_path seg :
  file_path <> EmptyString ->
  from_file file_path = Ok seg ->
  let s' := load_file ctx file_path s in
  audio_segment s' = Some seg
  /\ current_file_name s' = Some (last_component file_path)
  /\ label_file_name s' = ("File: " ++ last_component file_path)%string
  /\ volume_slider s' = 0
  /\ is_playing s' = is_playing s
  /\ label_status s' = label_status s
  /\ playback_state s' = playback_state s
  /\ threads s' = threads s
  /\ after_queue s' = after_queue s.
Proof.
  intros Hne Hok s'. subst s'.
  rewrite (load_file_ok ctx s file_path seg Hne Hok).
  repeat split.
Qed.

(** C2: when the decoder raises, [load_file] shows one error dialog
    carrying the decoder's message and changes nothing else: buffer,
    stored name, file-name label, slider, volume label, playing flag,
    status label, thread handle, live threads and pending callbacks
    are those of the state before the call. *)
Theorem load_failure_atomic ctx s file_path e :
  file_path <> EmptyString ->
  from_file file_path = Raise e ->
  let s' := load_file ctx file_path s in
  s' = log ctx (ADialog (ShowError ERR_TITLE (err_text e))) s
  /\ trace s' = trace s ++ [(ctx, ADialog (ShowError ERR_TITLE (err_text e)))]
  /\ audio_segment s' = audio_segment s
  /\ current_file_name s' = current_file_name s
  /\ label_file_name s' = label_file_name s
  /\ volume_slider s' = volume_slider s
  /\ label_volume_value s' = label_volume_value s
  /\ is_playing s' = is_playing s
  /\ label_status s' = label_status s
  /\ playback_state s' = playback_state s
  /\ play_thread s' = play_thread s
  /\ threads s' = threads s
  /\ after_queue s' = after_queue s.
Proof.
  intros Hne Hraise s'. subst s'. unfold Player.load_file.
  apply String.eqb_neq in Hne. rewrite Hne, Hraise.
  repeat split.
Qed.

(** C10: after a successful load the stored name is the last path
    component -- what follows the final "/" and, within that, the final
    "\" -- the label shows it behind "File: ", it contains neither
    separator, and what the path has in front of it is empty or ends in
    a separator. *)
Theorem load_stores_last_component ctx s file_path seg :
  file_path <> EmptyString ->
  from_file file_path = Ok seg ->
  let s' := load_file ctx file_path s in
  let name := after_last "\" (after_last "/" file_path) in
  basename file_path = Some name
  /\ current_file_name s' = Some name
  /\ label_file_name s' = ("File: " ++ name)%string
  /\ contains "/" name = false
  /\ contains "\" name = false
  /\ exists dir, file_path = (dir ++ name)%string /\ is_directory_prefix dir.
Proof.
  intros Hne Hok s' name. subst s' name.
  fold (last_component file_path).
  rewrite (load_file_ok ctx s file_path seg Hne Hok).
  split; [apply basename_last_component|].
  do 2 (split; [reflexivity|]).
  split; [apply last_component_free|].
  split; [apply last_component_free|].
  apply last_component_suffix.
Qed.

(** *** Stopping *)

Lemma stop_audio_not_playing ctx s :
  is_playing s = false -> stop_audio ctx s = s.
Proof. intros H. unfold Player.stop_audio. now rewrite H. Qed.

Lemma stop_audio_playing ctx s :
  is_playing s = true ->
  stop_audio ctx s
  = log ctx (AOsSystem kill_command)
      (write ctx (W_label_status STATUS_STOPPED)
         (write ctx (W_is_playing false) s)).
Proof. intros H. unfold Player.stop_audio. now rewrite H. Qed.

Lemma stop_audio_clears_flag ctx s : is_playing (stop_audio ctx s) = false.
Proof.
  destruct (is_playing s) eqn:H.
  - now rewrite stop_audio_playing.
  - now rewrite stop_audio_not_playing.
Qed.

Lemma stop_audio_keeps_track ctx s :
  audio_segment (stop_audio ctx s) = audio_segment s
  /\ volume_slider (stop_audio ctx s) = volume_slider s
  /\ threads (stop_audio ctx s) = threads s
  /\ next_tid (stop_audio ctx s) = next_tid s.
Proof.
  unfold Player.stop_audio. destruct (is_playing s); repeat split.
Qed.

Lemma count_kills_app (t u : list (Ctx * Action Buffer)) :
  count_kills (t ++ u) = (count_kills t + count_kills u)%nat.
Proof.
  induction t as [|[c a] t IH]; [reflexivity|].
  simpl. destruct a; simpl; now rewrite IH.
Qed.

(** C7: when the flag is down [stop_audio] returns the state it was
    given, trace included; from a playing state the first call lowers
    the flag, writes the Stopped label and issues one kill command, and
    a second call right after it changes nothing. *)
Theorem stop_audio_idempotent ctx s :
  (is_playing s = false -> stop_audio ctx s = s)
  /\ (is_playing s = true ->
      let s1 := stop_audio ctx s in
      is_playing s1 = false
      /\ label_status s1 = STATUS_STOPPED
      /\ playback_state s1 = Ended
      /\ count_kills (trace s1) = S (count_kills (trace s))
      /\ stop_audio ctx s1 = s1
      /\ count_kills (trace (stop_audio ctx s1)) = count_kills (trace s1)).
Proof.
  split; [apply stop_audio_not_playing|].
  intros H s1. subst s1.
  assert (Hagain : stop_audio ctx (stop_audio ctx s) = stop_audio ctx s)
    by apply stop_audio_not_playing, stop_audio_clears_flag.
  rewrite Hagain, (stop_audio_playing ctx s H).
  repeat split.
  unfold_player. simpl. rewrite <- !app_assoc, count_kills_app.
  simpl. lia.
Qed.

(** *** Playing *)

Lemma play_audio_without_track ctx s :
  audio_segment s = None ->
  play_audio ctx s = log ctx (ADialog (ShowWarning WARN_TITLE WARN_TEXT)) s.
Proof. intros H. unfold Player.play_audio. now rewrite H. Qed.

Lemma play_audio_with_track ctx s seg :
  audio_segment s = Some seg ->
  play_audio ctx s
  = thread_start ctx (apply_gain seg (volume_slider s))
      (write ctx (W_label_status STATUS_PLAYING)
         (write ctx (W_is_playing true)
            (if is_playing s then stop_audio ctx s else s))).
Proof.
  intros H. unfold Player.play_audio. rewrite H.
  destruct (is_playing s).
  - destruct (stop_audio_keeps_track ctx s) as (Ha & Hv & _).
    now rewrite Ha, Hv, H.
  - now rewrite H.
Qed.

(** C8: a [play_audio] call made while the flag is up runs [stop_audio]
    to its end -- flag down, Stopped label, kill command -- and only
    then reads the slider, raises the flag again and starts the new
    thread; the result is that of playing from the stopped state. *)
Theorem play_while_playing_stops_first ctx s seg :
  audio_segment s = Some seg ->
  is_playing s = true ->
  let s' := play_audio ctx s in
  s' = play_audio ctx (stop_audio ctx s)
  /\ trace s'
     = trace s
         ++ [(ctx, AWrite (W_is_playing false));
             (ctx, AWrite (W_label_status STATUS_STOPPED));
             (ctx, AOsSystem kill_command);
             (ctx, AWrite (W_is_playing true));
             (ctx, AWrite (W_label_status STATUS_PLAYING));
             (ctx, AWrite (W_play_thread (next_tid s)));
             (ctx, AThreadStart (next_tid s)
                     (apply_gain seg (volume_slider s)))]
  /\ is_playing s' = true
  /\ label_status s' = STATUS_PLAYING
  /\ threads s' = threads s ++ [(next_tid s, apply_gain seg (volume_slider s))].
Proof.
  intros Hseg Hplay s'. subst s'.
  destruct (stop_audio_keeps_track ctx s) as (Ha & Hv & _).
  rewrite (play_audio_with_track ctx s seg Hseg).
  rewrite (play_audio_with_track ctx (stop_audio ctx s) seg)
    by now rewrite Ha.
  rewrite stop_audio_clears_flag, Hv, Hplay.
  rewrite (stop_audio_playing ctx s Hplay).
  unfold_player. simpl. rewrite <- !app_assoc. simpl.
  repeat split.
Qed.

(** *** Runs *)

Lemma run_snoc evs e s : run (evs ++ [e]) s = step e (run evs s).
Proof. unfold Player.run. now rewrite fold_left_app. Qed.

Lemma run_cons evs e s : run (e :: evs) s = run evs (step e s).
Proof. reflexivity. Qed.

(** Once a track is loaded it stays loaded. *)
Lemma step_track_stays e s :
  audio_segment (step e s) = None -> audio_segment s = None.
Proof.
  destruct e as [file_path| | |v|tid o|]; simpl.
  - unfold Player.load_file.
    destruct (file_path =? EmptyString)%string; [easy|].
    destruct (from_file file_path); [|easy].
    destruct (basename file_path); discriminate.
  - destruct (audio_segment s) as [seg|] eqn:H; [|easy].
    rewrite (play_audio_with_track _ s seg H). simpl.
    destruct (is_playing s); [|now rewrite H].
    destruct (stop_audio_keeps_track EventLoop s) as (-> & _).
    now rewrite H.
  - now destruct (stop_audio_keeps_track EventLoop s) as (-> & _).
  - easy.
  - now destruct (find_thread tid (threads s)).
  - destruct (after_queue s) as [|[text] q]; easy.
Qed.

Lemma step_never_played e s :
  audio_segment (step e s) = None ->
  never_played s -> never_played (step e s).
Proof.
  intros Hnone (Hp & Hl & Hf & Ht & Hth & Hq).
  destruct e as [file_path| | |v|tid o|]; simpl in *.
  - revert Hnone. unfold Player.load_file.
    destruct (file_path =? EmptyString)%string; [now repeat split|].
    destruct (from_file file_path).
    + destruct (basename file_path); discriminate.
    + now repeat split.
  - pose proof (step_track_stays ClickPlay s Hnone) as H.
    rewrite (play_audio_without_track _ s H). now repeat split.
  - rewrite (stop_audio_not_playing _ s Hp). now repeat split.
  - now repeat split.
  - rewrite Hth. now repeat split.
  - rewrite Hq. now repeat split.
Qed.

Lemma run_never_played evs :
  audio_segment (run evs init) = None -> never_played (run evs init).
Proof.
  induction evs as [|e evs IH] using rev_ind.
  - intros _. now repeat split.
  - rewrite run_snoc. intros H.
    apply step_never_played; [exact H|].
    apply IH. now apply step_track_stays in H.
Qed.

(** C6: at any state the application reaches without a track loaded,
    the state is Idle and [play_audio] does one thing only: it shows the
    warning dialog (not an error dialog).  The flag stays down, the
    status, file-name and volume labels and the slider keep their
    values, no thread is started and nothing is posted to the loop. *)
Theorem play_without_track_warns ctx evs :
  let s := run evs init in
  audio_segment s = None ->
  let s' := play_audio ctx s in
  playback_state s = Idle
  /\ s' = log ctx (ADialog (ShowWarning WARN_TITLE WARN_TEXT)) s
  /\ trace s' = trace s ++ [(ctx, ADialog (ShowWarning WARN_TITLE WARN_TEXT))]
  /\ playback_state s' = Idle
  /\ is_playing s' = false
  /\ label_status s' = STATUS_READY
  /\ label_file_name s' = NO_FILE
  /\ label_volume_value s' = label_volume_value s
  /\ volume_slider s' = volume_slider s
  /\ audio_segment s' = None
  /\ play_thread s' = None
  /\ threads s' = []
  /\ after_queue s' = [].
Proof.
  intros s Hnone s'. subst s s'.
  destruct (run_never_played evs Hnone) as (Hp & Hl & Hf & Ht & Hth & Hq).
  rewrite (play_audio_without_track ctx _ Hnone).
  unfold playback_state. simpl. rewrite Hp, Hl.
  now repeat split.
Qed.

(** *** Gain *)

(** Without a load or a slider move, a step keeps the buffer and the
    slider, and every thread it starts gets the buffer with the slider's
    gain applied once. *)
Lemma step_keeps_gain e s seg :
  keeps_track_and_gain e = true ->
  audio_segment s = Some seg ->
  audio_segment (step e s) = Some seg
  /\ volume_slider (step e s) = volume_slider s
  /\ exists t, trace (step e s) = trace s ++ t
               /\ Forall (starts_with (apply_gain seg (volume_slider s))) t.
Proof.
  intros Hev Hseg.
  destruct e as [file_path| | |v|tid o|]; try discriminate; simpl.
  - rewrite (play_audio_with_track _ s seg Hseg).
    unfold Player.stop_audio.
    destruct (is_playing s); unfold_player; simpl;
      (split; [exact Hseg|]); (split; [reflexivity|]);
      rewrite <- !app_assoc; simpl;
      eexists; (split; [reflexivity|]); repeat constructor.
  - unfold Player.stop_audio.
    destruct (is_playing s); unfold_player; simpl;
      (split; [exact Hseg|]); (split; [reflexivity|]).
    + rewrite <- !app_assoc. simpl.
      eexists; (split; [reflexivity|]); repeat constructor.
    + exists []. now rewrite app_nil_r.
  - destruct (find_thread tid (threads s)) as [audio|];
      unfold_player; simpl;
      (split; [exact Hseg|]); (split; [reflexivity|]).
    + rewrite <- !app_assoc. simpl.
      eexists; (split; [reflexivity|]); repeat constructor.
    + exists []. now rewrite app_nil_r.
  - destruct (after_queue s) as [|[text] q];
      unfold_player; simpl;
      (split; [exact Hseg|]); (split; [reflexivity|]).
    + exists []. now rewrite app_nil_r.
    + eexists; (split; [reflexivity|]); repeat constructor.
Qed.

Lemma run_keeps_gain evs : forall s seg,
  forallb keeps_track_and_gain evs = true ->
  audio_segment s = Some seg ->
  audio_segment (run evs s) = Some seg
  /\ volume_slider (run evs s) = volume_slider s
  /\ exists t, trace (run evs s) = trace s ++ t
               /\ Forall (starts_with (apply_gain seg (volume_slider s))) t.
Proof.
  induction evs as [|e evs IH]; intros s seg Hevs Hseg.
  - repeat split; [exact Hseg|]. exists []. split; [|constructor].
    simpl. now rewrite app_nil_r.
  - simpl in Hevs. apply andb_true_iff in Hevs as [He Hevs].
    rewrite run_cons.
    destruct (step_keeps_gain e s seg He Hseg) as (Ha & Hv & t1 & Ht1 & Hf1).
    destruct (IH (step e s) seg Hevs Ha) as (Ha' & Hv' & t2 & Ht2 & Hf2).
    split; [exact Ha'|]. split; [congruence|].
    exists (t1 ++ t2). split.
    + now rewrite Ht2, Ht1, app_assoc.
    + apply Forall_app. split; [exact Hf1|]. now rewrite <- Hv.
Qed.

(** Dragging the slider reaches no thread. *)
Lemma slide_keeps_threads v s : threads (step (Slide v) s) = threads s.
Proof. reflexivity. Qed.

(** C4: with a track loaded, [play_audio] hands the new thread the
    loaded buffer with the gain the slider shows at that moment, and
    leaves the loaded buffer and the slider as they were; moving the
    slider afterwards does not reach a thread already started; and
    through any further plays, stops, thread ends and loop turns at the
    same slider setting every thread started gets that same
    once-adjusted buffer. *)
Theorem play_applies_gain_fresh ctx s seg :
  audio_segment s = Some seg ->
  let db := volume_slider s in
  let s' := play_audio ctx s in
  audio_segment s' = Some seg
  /\ volume_slider s' = db
  /\ threads s' = threads s ++ [(next_tid s, apply_gain seg db)]
  /\ (exists t, trace s' = trace s ++ t ++ [(ctx, AThreadStart (next_tid s) (apply_gain seg db))])
  /\ (forall v, threads (step (Slide v) s') = threads s')
  /\ (forall evs,
        forallb keeps_track_and_gain evs = true ->
        audio_segment (run evs s) = Some seg
        /\ volume_slider (run evs s) = db
        /\ exists t, trace (run evs s) = trace s ++ t
                     /\ Forall (starts_with (apply_gain seg db)) t).
Proof.
  intros Hseg db s'. subst db s'.
  rewrite (play_audio_with_track ctx s seg Hseg).
  unfold Player.stop_audio.
  split; [destruct (is_playing s); exact Hseg|].
  split; [destruct (is_playing s); reflexivity|].
  split; [destruct (is_playing s); reflexivity|].
  split.
  - destruct (is_playing s); unfold_player; simpl;
      rewrite <- !app_assoc; simpl.
    + now exists [(ctx, AWrite (W_is_playing false));
                  (ctx, AWrite (W_label_status STATUS_STOPPED));
                  (ctx, AOsSystem kill_command);
                  (ctx, AWrite (W_is_playing true));
                  (ctx, AWrite (W_label_status STATUS_PLAYING));
                  (ctx, AWrite (W_play_thread (next_tid s)))].
    + now exists [(ctx, AWrite (W_is_playing true));
                  (ctx, AWrite (W_label_status STATUS_PLAYING));
                  (ctx, AWrite (W_play_thread (next_tid s)))].
  - split; [intros v; apply slide_keeps_threads|].
    intros evs Hevs. now apply run_keeps_gain.
Qed.

(** *** Which thread writes what *)

Lemma step_discipline e s :
  forallb background_discipline (trace s) = true ->
  forallb background_discipline (trace (step e s)) = true.
Proof.
  intros H. destruct e as [file_path| | |v|tid o|]; simpl.
  - unfold Player.load_file.
    destruct (file_path =? EmptyString)%string; [exact H|].
    destruct (from_file file_path); [destruct (basename file_path)|];
      unfold_player; simpl; rewrite ?forallb_app, H; reflexivity.
  - unfold Player.play_audio, Player.stop_audio.
    destruct (audio_segment s) eqn:Ha; [destruct (is_playing s)|];
      unfold_player; simpl; rewrite ?Ha;
      unfold_player; simpl; rewrite ?forallb_app, H; reflexivity.
  - unfold Player.stop_audio. destruct (is_playing s); [|exact H].
    unfold_player; simpl. rewrite ?forallb_app, H. reflexivity.
  - unfold_player; simpl. rewrite ?forallb_app, H. reflexivity.
  - destruct (find_thread tid (threads s)); [|exact H].
    unfold_player; simpl. rewrite ?forallb_app, H. reflexivity.
  - destruct (after_queue s) as [|[text] q]; [exact H|].
    unfold_player; simpl. rewrite ?forallb_app, H. reflexivity.
Qed.

Lemma run_discipline evs :
  forallb background_discipline (trace (run evs init)) = true.
Proof.
  induction evs as [|e evs IH] using rev_ind; [reflexivity|].
  rewrite run_snoc. now apply step_discipline.
Qed.

Lemma discipline_widget (e : Ctx * Action Buffer) :
  background_discipline e = true -> widget_on_loop e = true.
Proof.
  destruct e as [[|] [w| | | | |]]; try reflexivity.
  destruct w as [| |[|]| | | | |]; simpl; congruence.
Qed.

Lemma run_widget_on_loop evs :
  forallb widget_on_loop (trace (run evs init)) = true.
Proof.
  apply forallb_forall. intros e He.
  apply discipline_widget.
  pose proof (run_discipline evs) as H.
  rewrite forallb_forall in H. now apply H.
Qed.

(** C3 (as amended): in every run the background thread does three
    things and no other: it calls [play], it clears the [is_playing]
    flag itself, on its own thread, and it posts the status-label
    update with [root.after].  It leaves every widget as it found it;
    the label is written later, by the main loop, when the loop runs
    the posted callback. *)
Theorem background_posts_label_writes_flag :
  (forall evs, forallb background_discipline (trace (run evs init)) = true)
  /\ (forall evs, forallb widget_on_loop (trace (run evs init)) = true)
  /\ (forall audio o s,
        let s' := _play_in_thread Background audio o s in
        trace s'
        = trace s ++ [(Background, APlay audio o);
                      (Background, AWrite (W_is_playing false));
                      (Background, AAfter (ConfigStatus STATUS_FINISHED))]
        /\ is_playing s' = false
        /\ label_status s' = label_status s
        /\ label_file_name s' = label_file_name s
        /\ label_volume_value s' = label_volume_value s
        /\ volume_slider s' = volume_slider s
        /\ after_queue s' = after_queue s ++ [ConfigStatus STATUS_FINISHED]
        /\ let s'' := step LoopIdle
                        (set_runtime (threads s') (next_tid s')
                           [ConfigStatus STATUS_FINISHED] s') in
           label_status s'' = STATUS_FINISHED
           /\ trace s'' = trace s' ++ [(EventLoop, AWrite (W_label_status STATUS_FINISHED))]).
Proof.
  split; [exact run_discipline|].
  split; [exact run_widget_on_loop|].
  intros audio o s. unfold_player. simpl.
  rewrite <- !app_assoc. simpl. repeat split.
Qed.

(** *** Stop, then the thread comes back *)

(** Stopping raises no flag that the thread body could look at: when
    the killed [play] returns, the [finally] block posts the Finished
    text as it always does, and the loop writes it over the Stopped
    one. *)
Lemma stop_then_thread_end s tid audio o :
  is_playing s = true ->
  find_thread tid (threads s) = Some audio ->
  after_queue s = [] ->
  label_status (step ClickStop s) = STATUS_STOPPED
  /\ label_status (run [ClickStop; ThreadEnd tid o; LoopIdle] s)
     = STATUS_FINISHED.
Proof.
  intros Hp Hth Hq.
  cbn [Player.run fold_left Player.step].
  rewrite (stop_audio_playing EventLoop s Hp).
  unfold_player. rewrite Hth. unfold_player. rewrite Hq.
  split; reflexivity.
Qed.

End Facts.

End PlayerFacts.

(** ** The theorems at work on the concrete back end *)

Module Scenarios.

Import PyStr Player Demo.

(** Split a conjunction into its parts, without solving any of them. *)
Ltac conj := cbv zeta; repeat match goal with |- _ /\ _ => split end.

(** C1, as the specification words it, fails: a file loaded while another
    is playing leaves the flag up and the Playing label in place. *)
Lemma load_while_playing_not_idle :
  ~ load_success_as_specified Audio Demo.from_file Gained Demo.os_name.
Proof.
  intros H.
  specialize (H [ClickLoad SONG; ClickPlay] OTHER (Decoded OTHER)).
  cbv zeta in H.
  destruct H as (_ & _ & Hidle & _); [discriminate | reflexivity |].
  vm_compute in Hidle. discriminate.
Qed.

Lemma load_success_effects_witness :
  let s' := load_file Demo.from_file EventLoop OTHER playing in
  audio_segment s' = Some (Decoded OTHER)
  /\ label_file_name s' = "File: other.wav"
  /\ volume_slider s' = 0
  /\ is_playing s' = true
  /\ label_status s' = STATUS_PLAYING.
Proof.
  destruct (PlayerFacts.load_success_effects Audio Demo.from_file EventLoop
              playing OTHER (Decoded OTHER))
    as (Ha & _ & Hl & Hv & Hp & Hs & _);
    [discriminate | reflexivity |].
  conj; [exact Ha | exact Hl | exact Hv | exact Hp | exact Hs].
Defined.

Lemma load_failure_atomic_witness :
  let s' := load_file Demo.from_file EventLoop MISSING playing in
  audio_segment s' = Some (Decoded SONG)
  /\ current_file_name s' = Some "song.mp3"
  /\ label_file_name s' = "File: song.mp3"
  /\ volume_slider s' = (-10)%Z
  /\ playback_state s' = Playing.
Proof.
  destruct (PlayerFacts.load_failure_atomic Audio Demo.from_file EventLoop
              playing MISSING
              "[Errno 2] No such file or directory: /nonexistent/lost.mp3")
    as (_ & _ & Ha & Hn & Hl & Hv & _ & _ & _ & Hs & _);
    [discriminate | reflexivity |].
  conj; [exact Ha | exact Hn | exact Hl | exact Hv | exact Hs].
Defined.

Lemma load_stores_last_component_witness :
  let s' := load_file Demo.from_file EventLoop OTHER loaded in
  current_file_name s' = Some "other.wav"
  /\ label_file_name s' = "File: other.wav".
Proof.
  destruct (PlayerFacts.load_stores_last_component Audio Demo.from_file
              EventLoop loaded OTHER (Decoded OTHER))
    as (_ & Hn & Hl & _);
    [discriminate | reflexivity |].
  split; [exact Hn | exact Hl].
Defined.

Lemma stop_audio_idempotent_witness :
  stop_audio Demo.os_name EventLoop loaded = loaded
  /\ (let s1 := stop_audio Demo.os_name EventLoop playing in
      label_status s1 = STATUS_STOPPED
      /\ stop_audio Demo.os_name EventLoop s1 = s1
      /\ count_kills (trace s1) = 1%nat).
Proof.
  split.
  - apply (proj1 (PlayerFacts.stop_audio_idempotent Audio Demo.os_name
                    EventLoop loaded)).
    reflexivity.
  - destruct (proj2 (PlayerFacts.stop_audio_idempotent Audio Demo.os_name
                       EventLoop playing) eq_refl)
      as (_ & Hl & _ & Hk & Hs & _).
    conj; [exact Hl | exact Hs | exact Hk].
Defined.

Lemma play_while_playing_stops_first_witness :
  let s' := play_audio Gained Demo.os_name EventLoop playing in
  s' = play_audio Gained Demo.os_name EventLoop
         (stop_audio Demo.os_name EventLoop playing)
  /\ threads s' = [(0%nat, Gained (Decoded SONG) (-10));
                   (1%nat, Gained (Decoded SONG) (-10))].
Proof.
  destruct (PlayerFacts.play_while_playing_stops_first Audio Gained
              Demo.os_name EventLoop playing (Decoded SONG))
    as (He & _ & _ & _ & Hth);
    [reflexivity | reflexivity |].
  split; [exact He | exact Hth].
Defined.

Lemma play_without_track_warns_witness :
  let s := Demo.run [ClickStop; Slide 4; ClickLoad MISSING] start in
  let s' := play_audio Gained Demo.os_name EventLoop s in
  playback_state s' = Idle
  /\ threads s' = []
  /\ trace s' = trace s ++ [(EventLoop, ADialog (ShowWarning WARN_TITLE WARN_TEXT))].
Proof.
  destruct (PlayerFacts.play_without_track_warns Audio Demo.from_file Gained
              Demo.os_name EventLoop [ClickStop; Slide 4; ClickLoad MISSING])
    as (_ & _ & Ht & Hs & _ & _ & _ & _ & _ & _ & _ & Hth & _);
    [reflexivity |].
  conj; [exact Hs | exact Hth | exact Ht].
Defined.

(** Play at -10, stop, play again: both threads get the decoded file with
    -10 applied once, and the stored buffer is still the decoded file. *)
Lemma play_applies_gain_fresh_witness :
  let s := Demo.run [Slide (-10)] loaded in
  let s' := Demo.run [ClickPlay; ClickStop; ThreadEnd 0 Returned; LoopIdle;
                      ClickPlay] s in
  audio_segment s' = Some (Decoded SONG)
  /\ threads (play_audio Gained Demo.os_name EventLoop s)
     = [(0%nat, Gained (Decoded SONG) (-10))]
  /\ exists t, trace s' = trace s ++ t
               /\ Forall (starts_with (Gained (Decoded SONG) (-10))) t.
Proof.
  destruct (PlayerFacts.play_applies_gain_fresh Audio Demo.from_file Gained
              Demo.os_name EventLoop (Demo.run [Slide (-10)] loaded)
              (Decoded SONG) eq_refl)
    as (_ & _ & Hth & _ & _ & Hrun).
  destruct (Hrun [ClickPlay; ClickStop; ThreadEnd 0 Returned; LoopIdle;
                  ClickPlay] eq_refl)
    as (Ha & _ & Ht).
  split; [exact Ha|]. split; [exact Hth | exact Ht].
Defined.

(** C3, as the specification words it, fails: when the thread ends, the
    trace holds an assignment made on the background thread. *)
Lemma background_writes_flag_directly :
  ~ background_marshals_everything Audio Demo.from_file Gained Demo.os_name.
Proof.
  intros H.
  specialize (H [ClickLoad SONG; ClickPlay; ThreadEnd 0 Returned]).
  rewrite Forall_forall in H.
  apply (H (Background, AWrite (W_is_playing false))).
  vm_compute. do 9 right. left. reflexivity.
Qed.

(** C9: load song.mp3, drag the slider to -10, Play, Stop.  Right after
    Stop the status label reads Stopped and the file label reads
    song.mp3.  The killed thread then returns, its callback runs, and the
    status label reads Finished: the Stopped text does not stay. *)
Theorem stop_label_overwritten_by_finished :
  let stopped := Demo.run [ClickStop] playing in
  let later := Demo.run [ThreadEnd 0 Returned; LoopIdle] stopped in
  label_status stopped = STATUS_STOPPED
  /\ label_file_name stopped = "File: song.mp3"
  /\ threads stopped = [(0%nat, Gained (Decoded SONG) (-10))]
  /\ label_status later = STATUS_FINISHED
  /\ label_status later <> STATUS_STOPPED
  /\ label_file_name later = "File: song.mp3".
Proof.
  vm_compute. conj; try reflexivity. discriminate.
Qed.

End Scenarios.


(** ** More on file names *)

Module PyStrMore.

Import PyStr PyStrFacts.

Lemma contains_append (c : ascii) (a b : string) :
  contains c (a ++ b)%string = contains c a || contains c b.
Proof.
  induction a as [|d a IH]; [reflexivity|].
  simpl. now rewrite IH, orb_assoc.
Qed.

(** A separator-free tail passes through the cut untouched. *)
Lemma after_last_append (sep : ascii) (a b : string) :
  contains sep b = false ->
  after_last sep (a ++ b)%string = (after_last sep a ++ b)%string.
Proof.
  intros Hb. induction a as [|c a IH].
  - simpl. now apply after_last_without_sep.
  - cbn [append after_last]. rewrite contains_append, Hb, orb_false_r.
    destruct (contains sep a); [exact IH|].
    now destruct (Ascii.eqb c sep).
Qed.

Lemma after_last_joined (sep : ascii) (dir name : string) :
  contains sep name = false ->
  after_last sep (dir ++ String sep name)%string = name.
Proof.
  intros Hn. induction dir as [|c dir IH].
  - simpl. now rewrite Hn, Ascii.eqb_refl.
  - cbn [append after_last]. rewrite contains_append. simpl.
    now rewrite Ascii.eqb_refl, orb_true_r.
Qed.

(** X1: joining the pieces of [s.split(sep)] with [sep] gives [s] back; no
    piece contains [sep]; and there is one piece more than [sep] occurs in
    [s]. *)
Theorem split_join_roundtrip (sep : ascii) (s : string) :
  join sep (split sep s) = s
  /\ Forall (fun piece => contains sep piece = false) (split sep s)
  /\ length (split sep s) = S (count sep s).
Proof.
  induction s as [|c rest IH].
  - repeat split. now constructor.
  - destruct IH as (Hjoin & Hfree & Hlen).
    cbn [split count].
    destruct (split sep rest) as [|p ps] eqn:Hs;
      [now apply split_nonempty in Hs|].
    destruct (Ascii.eqb c sep) eqn:Hc.
    + split; [|split].
      * apply Ascii.eqb_eq in Hc. subst c.
        change (String sep (join sep (p :: ps)) = String sep rest).
        now rewrite Hjoin.
      * now constructor.
      * simpl. simpl in Hlen. now rewrite Hlen.
    + apply Forall_cons_iff in Hfree as [Hp Hps].
      split; [|split].
      * destruct ps as [|q qs]; cbn [join] in *; simpl; now rewrite Hjoin.
      * constructor; [|exact Hps]. simpl. now rewrite Hc, Hp.
      * exact Hlen.
Qed.

(** X2: a separator-free name put behind a directory with "/" or with "\\"
    comes back as the name, whatever the directory part is; in particular
    a path that ends in a separator names the empty string. *)
Theorem basename_of_joined (dir name : string) :
  bare_name name ->
  basename (dir ++ String "/" name)%string = Some name
  /\ basename (dir ++ String "\" name)%string = Some name.
Proof.
  intros [Hslash Hback].
  rewrite !basename_last_component. unfold last_component. split.
  - rewrite (after_last_joined "/" dir name Hslash).
    now rewrite (after_last_without_sep "\" name Hback).
  - rewrite (after_last_append "/" dir (String "\" name)) by exact Hslash.
    now rewrite (after_last_joined "\" (after_last "/" dir) name Hback).
Qed.

(** X3: what [basename] returns is a fixed point of it: a name without
    directory part is its own base name. *)
Theorem basename_idempotent (file_path name : string) :
  basename file_path = Some name ->
  bare_name name /\ basename name = Some name.
Proof.
  rewrite basename_last_component. intros H. injection H as <-.
  pose proof (last_component_free file_path) as [Hslash Hback].
  split; [now split|].
  rewrite basename_last_component. unfold last_component at 1.
  rewrite (after_last_without_sep "/" _ Hslash).
  now rewrite (after_last_without_sep "\" _ Hback).
Qed.

End PyStrMore.


(** ** Whole runs *)

Module RunFacts.

Import PyStr PyStrFacts Player.
Import PlayerFacts.

Section Runs.

Variable Buffer : Type.
Variable from_file : string -> result Buffer.
Variable apply_gain : Buffer -> Z -> Buffer.
Variable os_name : string.

Implicit Types (s : State Buffer) (ctx : Ctx) (seg : Buffer).

Local Abbreviation load_file := (Player.load_file from_file).
Local Abbreviation stop_audio := (Player.stop_audio os_name).
Local Abbreviation play_audio := (Player.play_audio apply_gain os_name).
Local Abbreviation step := (Player.step from_file apply_gain os_name).
Local Abbreviation run := (Player.run from_file apply_gain os_name).
Local Abbreviation init := (Player.init Buffer).
Local Abbreviation decoded_with_gain :=
  (Player.decoded_with_gain Buffer from_file apply_gain).
Local Abbreviation dialog_justified := (Player.dialog_justified Buffer from_file).
Local Abbreviation render_invariant :=
  (Player.render_invariant Buffer from_file apply_gain).

(** One goal for each way an event can go. *)
Ltac step_cases e s :=
  destruct e as [file_path| | |v|tid o|]; cbn [Player.step];
  [ unfold Player.load_file;
    destruct (String.eqb file_path EmptyString) eqn:Hpath;
    [| destruct (from_file file_path) as [seg|err] eqn:Hdec;
       [rewrite basename_last_component|] ]
  | unfold Player.play_audio, Player.stop_audio;
    destruct (audio_segment s) as [seg|] eqn:Haudio;
    [ destruct (is_playing s) eqn:Hflag; simpl; rewrite ?Haudio |]
  | unfold Player.stop_audio; destruct (is_playing s) eqn:Hflag
  | idtac
  | destruct (find_thread tid (threads s)) as [audio|] eqn:Hfind
  | destruct (after_queue s) as [|[text] q] eqn:Hq ];
  simpl.

(** Bring the goal to the fields of [s], in the form the hypotheses have
    after [step_cases]. *)
Ltac to_fields :=
  unfold_player;
  repeat match goal with
    | H : audio_segment ?s = _ |- context [audio_segment ?s] => rewrite H
    | H : is_playing ?s = _ |- context [is_playing ?s] => rewrite H
    | H : after_queue ?s = _ |- context [after_queue ?s] => rewrite H
    end.

Lemma run_preserves (P : State Buffer -> Prop) :
  (forall e s, P s -> P (step e s)) ->
  forall evs s, P s -> P (run evs s).
Proof.
  intros Hstep evs. induction evs as [|e evs IH]; intros s Hs; [exact Hs|].
  apply IH, Hstep, Hs.
Qed.

Lemma run_append evs1 evs2 s : run (evs1 ++ evs2) s = run evs2 (run evs1 s).
Proof. unfold Player.run. apply fold_left_app. Qed.

(** *** The file label and the stored name *)

Lemma step_files_consistent e s :
  files_consistent s -> files_consistent (step e s).
Proof.
  intros (Hl & Hn & Hb). step_cases e s;
    unfold Player.files_consistent; to_fields;
    try (split; [exact Hl | split; [exact Hn | exact Hb]]).
  split; [reflexivity|]. split; [split; discriminate|].
  intros name H. injection H as <-. apply last_component_free.
Qed.

(** X4: at every moment of every run the file label shows the stored
    name ("File: " and the name, or the initial text when none is
    stored), a name is stored exactly when a buffer is, and the stored name
    contains neither "/" nor "\". *)
Theorem run_files_consistent evs : files_consistent (run evs init).
Proof.
  apply run_preserves; [exact step_files_consistent|].
  split; [reflexivity|]. split; [split; reflexivity|]. discriminate.
Qed.

(** *** Buffers *)

Lemma scale_clamp_in_range v : in_slider_range (scale_clamp v).
Proof. unfold in_slider_range, scale_clamp, SLIDER_FROM, SLIDER_TO. lia. Qed.

Lemma find_thread_In tid (ths : list (nat * Buffer)) audio :
  find_thread tid ths = Some audio -> In (tid, audio) ths.
Proof.
  induction ths as [|[t a] ths IH]; simpl; [discriminate|].
  destruct (Nat.eqb t tid) eqn:Ht.
  - intros H. injection H as ->. apply Nat.eqb_eq in Ht. subst t. now left.
  - intros H. right. now apply IH.
Qed.

Lemma Forall_drop_thread (P : nat * Buffer -> Prop) tid ths :
  Forall P ths -> Forall P (drop_thread tid ths).
Proof. apply incl_Forall, incl_filter. Qed.

Lemma step_render_invariant e s :
  render_invariant s -> render_invariant (step e s).
Proof.
  intros (Hr & Hseg & Hth & Htr). step_cases e s;
    unfold Player.render_invariant; to_fields;
    try (split; [exact Hr | split; [exact Hseg | split; [exact Hth | exact Htr]]]).
  all: repeat match goal with |- _ /\ _ => split end; try assumption.
  all: rewrite <- ?app_assoc; simpl.
  all: try (apply Forall_app; split; [assumption | repeat constructor]).
  - unfold in_slider_range, SLIDER_FROM, SLIDER_TO. lia.
  - intros seg0 H. injection H as <-. now exists file_path.
  - destruct (Hseg seg eq_refl) as [path Hpath]. now exists path, seg, (volume_slider s).
  - destruct (Hseg seg eq_refl) as [path Hpath]. now exists path, seg, (volume_slider s).
  - destruct (Hseg seg eq_refl) as [path Hpath]. now exists path, seg, (volume_slider s).
  - destruct (Hseg seg eq_refl) as [path Hpath]. now exists path, seg, (volume_slider s).
  - apply scale_clamp_in_range.
  - now apply Forall_drop_thread.
  - apply find_thread_In in Hfind. rewrite Forall_forall in Hth.
    exact (Hth _ Hfind).
Qed.

Lemma reachable_render_invariant evs : render_invariant (run evs init).
Proof.
  apply run_preserves; [exact step_render_invariant|].
  split; [unfold in_slider_range, SLIDER_FROM, SLIDER_TO; simpl; lia|].
  split; [discriminate|]. split; constructor.
Qed.

(** X7: at every moment of every run the slider stands between -20 and
    10, whatever values the slider events carry. *)
Theorem run_slider_in_range evs :
  SLIDER_FROM <= volume_slider (run evs init) <= SLIDER_TO.
Proof.
  assert (H : render_invariant (run evs init)).
  { apply run_preserves; [exact step_render_invariant|].
    split; [unfold in_slider_range, SLIDER_FROM, SLIDER_TO; simpl; lia|].
    split; [discriminate|]. split; constructor. }
  exact (proj1 H).
Qed.

(** X8: in every run, whatever a thread is started with and whatever is
    handed to [play] is a buffer that [from_file] returned for some path,
    with one gain between -20 and 10 applied to it once. *)
Theorem run_renders_decoded_with_gain evs :
  Forall (renders decoded_with_gain) (trace (run evs init))
  /\ Forall (fun th => decoded_with_gain (snd th)) (threads (run evs init)).
Proof.
  destruct (reachable_render_invariant evs) as (_ & _ & Hth & Htr).
  split; [exact Htr | exact Hth].
Qed.

(** *** The status label and the flag *)

Lemma step_status_sound e s : status_sound s -> status_sound (step e s).
Proof.
  intros (Hk & Hposts & Hlab & Hfl). step_cases e s;
    unfold Player.status_sound; to_fields;
    try (split; [exact Hk | split; [exact Hposts | split; [exact Hlab | exact Hfl]]]).
  - repeat split; try assumption. discriminate.
  - repeat split; try assumption; try discriminate.
    intros [H|H]; discriminate.
  - repeat split; try assumption; try discriminate.
    intros [H|H]; discriminate.
  - repeat split; try assumption. discriminate.
  - rewrite forallb_app, Hposts. repeat split; try assumption. discriminate.
  - simpl in Hposts. apply andb_true_iff in Hposts as [Htext Hq'].
    apply String.eqb_eq in Htext. subst text.
    repeat split; try assumption.
    intros [H|H]; discriminate.
Qed.

Lemma reachable_status_sound evs : status_sound (run evs init).
Proof.
  apply run_preserves; [exact step_status_sound|].
  repeat split; try reflexivity; discriminate.
Qed.

(** X5: at every moment of every run the status label shows one of the
    four texts of the program, every callback waiting in the main loop is
    the one that writes the Finished text, the flag is down whenever the
    label reads Ready or Stopped, and the flag is up only with a buffer
    loaded. *)
Theorem run_status_sound evs : status_sound (run evs init).
Proof.
  apply run_preserves; [exact step_status_sound|].
  split; [reflexivity|]. split; [reflexivity|].
  split; [reflexivity | discriminate].
Qed.

Lemma step_not_ready e s :
  label_status s <> STATUS_READY ->
  forallb posts_finished (after_queue s) = true ->
  label_status (step e s) <> STATUS_READY
  /\ forallb posts_finished (after_queue (step e s)) = true.
Proof.
  intros Hl Hposts. step_cases e s; to_fields;
    try (split; [exact Hl | exact Hposts]);
    try (split; [discriminate | exact Hposts]).
  - split; [exact Hl|]. now rewrite forallb_app, Hposts.
  - simpl in Hposts. apply andb_true_iff in Hposts as [Htext Hq'].
    apply String.eqb_eq in Htext. subst text.
    split; [discriminate | exact Hq'].
Qed.

(** X6: once the status label has left its initial Ready text it never
    shows it again, so the application never comes back to Idle, whatever
    follows -- loads included. *)
Theorem status_never_ready_again evs later :
  label_status (run evs init) <> STATUS_READY ->
  label_status (run (evs ++ later) init) <> STATUS_READY
  /\ playback_state (run (evs ++ later) init) <> Idle.
Proof.
  intros Hl. rewrite run_append.
  assert (Hgoal : label_status (run later (run evs init)) <> STATUS_READY
                  /\ forallb posts_finished
                       (after_queue (run later (run evs init))) = true).
  { apply (run_preserves
             (fun s => label_status s <> STATUS_READY
                       /\ forallb posts_finished (after_queue s) = true)).
    - intros e s [H1 H2]. now apply step_not_ready.
    - split; [exact Hl|]. apply reachable_status_sound. }
  destruct Hgoal as [Hnr _]. split; [exact Hnr|].
  unfold playback_state.
  destruct (is_playing _); [discriminate|].
  apply String.eqb_neq in Hnr. now rewrite Hnr.
Qed.

(** *** Kill commands and dialogs *)

Lemma count_starts_app (t u : list (Ctx * Action Buffer)) :
  count_starts (t ++ u) = (count_starts t + count_starts u)%nat.
Proof.
  induction t as [|[c a] t IH]; [reflexivity|].
  simpl. destruct a; simpl; now rewrite IH.
Qed.

Lemma step_kills_bounded e s :
  (count_kills (trace s) + (if is_playing s then 1 else 0)
   <= count_starts (trace s))%nat ->
  (count_kills (trace (step e s)) + (if is_playing (step e s) then 1 else 0)
   <= count_starts (trace (step e s)))%nat.
Proof.
  intros H. step_cases e s; to_fields;
    rewrite <- ?app_assoc, ?(count_kills_app Buffer), ?count_starts_app;
    simpl in *; try lia.
  all: destruct (is_playing s); simpl in *; lia.
Qed.

(** X9: in every run the kill command has been issued at most as often
    as a playback thread has been started, and strictly less often while
    the flag is up: no Stop and no Play ever kills without a playback
    started since the previous kill. *)
Theorem kills_bounded_by_starts evs :
  (count_kills (trace (run evs init))
   + (if is_playing (run evs init) then 1 else 0)
   <= count_starts (trace (run evs init)))%nat.
Proof.
  apply (run_preserves
           (fun s => (count_kills (trace s) + (if is_playing s then 1 else 0)
                      <= count_starts (trace s))%nat)).
  - exact step_kills_bounded.
  - simpl. lia.
Qed.

Lemma step_dialogs_justified e s :
  Forall dialog_justified (trace s) ->
  Forall dialog_justified (trace (step e s)).
Proof.
  intros H. step_cases e s; to_fields; try exact H;
    rewrite <- ?app_assoc; simpl;
    (apply Forall_app; split; [exact H|]);
    repeat apply Forall_cons; try apply Forall_nil; simpl; try exact I.
  - split; [reflexivity|]. right. now exists file_path, err.
  - split; [reflexivity|]. now left.
Qed.

(** X10: in every run each dialog is shown from the main loop, and is
    either the Play warning or an error dialog carrying the message of an
    exception that [from_file] raised for some path; no other failure is
    ever reported, and nothing is reported from the background thread. *)
Theorem run_dialogs_justified evs :
  Forall dialog_justified (trace (run evs init)).
Proof.
  apply (run_preserves (fun s => Forall dialog_justified (trace s)));
    [exact step_dialogs_justified | constructor].
Qed.

Lemma step_no_warning e s :
  audio_segment s <> None ->
  audio_segment (step e s) <> None
  /\ exists t, trace (step e s) = trace s ++ t /\ existsb is_warning t = false.
Proof.
  intros H. step_cases e s; to_fields; try congruence;
    (split; [try exact H; try discriminate|]);
    rewrite <- ?app_assoc; simpl;
    try (eexists; split; reflexivity);
    try (exists []; split; [now rewrite app_nil_r | reflexivity]).
Qed.

(** X11: once a buffer is loaded it stays loaded through every later
    event, failed and cancelled loads included, and Play never shows its
    warning again. *)
Theorem once_loaded_never_warns evs s :
  audio_segment s <> None ->
  audio_segment (run evs s) <> None
  /\ exists t, trace (run evs s) = trace s ++ t /\ existsb is_warning t = false.
Proof.
  revert s. induction evs as [|e evs IH]; intros s Hs.
  - split; [exact Hs|]. exists []. split; [now rewrite app_nil_r | reflexivity].
  - destruct (step_no_warning e s Hs) as (Hs' & t1 & Ht1 & Hw1).
    destruct (IH (step e s) Hs') as (Hs'' & t2 & Ht2 & Hw2).
    split; [exact Hs''|]. exists (t1 ++ t2). split.
    + change (run (e :: evs) s) with (run evs (step e s)).
      now rewrite Ht2, Ht1, app_assoc.
    + now rewrite existsb_app, Hw1, Hw2.
Qed.

(** *** Threads *)

Lemma step_threads_fresh e s : threads_fresh s -> threads_fresh (step e s).
Proof.
  unfold Player.threads_fresh. intros H.
  step_cases e s; to_fields; try exact H.
  - apply Forall_app. split; [|repeat constructor].
    eapply Forall_impl; [|exact H]. simpl. intros th Hlt. lia.
  - apply Forall_app. split; [|repeat constructor].
    eapply Forall_impl; [|exact H]. simpl. intros th Hlt. lia.
  - now apply Forall_drop_thread.
Qed.

Lemma reachable_threads_fresh evs : threads_fresh (run evs init).
Proof. apply run_preserves; [exact step_threads_fresh | constructor]. Qed.

Lemma find_thread_new n (ths : list (nat * Buffer)) audio :
  Forall (fun th => (fst th < n)%nat) ths ->
  find_thread n (ths ++ [(n, audio)]) = Some audio.
Proof.
  induction ths as [|[t a] ths IH]; simpl; intros H.
  - now rewrite Nat.eqb_refl.
  - apply Forall_cons_iff in H as [Hlt H]. simpl in Hlt.
    destruct (Nat.eqb t n) eqn:Ht; [apply Nat.eqb_eq in Ht; lia|].
    now apply IH.
Qed.

Lemma find_thread_old tid (ths more : list (nat * Buffer)) audio :
  find_thread tid ths = Some audio ->
  find_thread tid (ths ++ more) = Some audio.
Proof.
  induction ths as [|[t a] ths IH]; simpl; [discriminate|].
  destruct (Nat.eqb t tid); [easy | exact IH].
Qed.

Lemma find_thread_below tid n (ths : list (nat * Buffer)) audio :
  Forall (fun th => (fst th < n)%nat) ths ->
  find_thread tid ths = Some audio -> (tid < n)%nat.
Proof.
  intros H Hfind. apply find_thread_In in Hfind.
  rewrite Forall_forall in H. exact (H _ Hfind).
Qed.

(** The state right after [play_audio], in the fields that the later
    steps look at. *)
Lemma play_audio_outcome s seg :
  audio_segment s = Some seg ->
  let s1 := play_audio EventLoop s in
  audio_segment s1 = Some seg
  /\ is_playing s1 = true
  /\ label_status s1 = STATUS_PLAYING
  /\ threads s1 = threads s ++ [(next_tid s, apply_gain seg (volume_slider s))]
  /\ next_tid s1 = S (next_tid s)
  /\ after_queue s1 = after_queue s
  /\ exists t, trace s1 = trace s ++ t
               /\ existsb is_dialog t = false
               /\ (is_playing s = false -> count_kills t = 0%nat).
Proof.
  intros Hseg s1. subst s1.
  rewrite (play_audio_with_track Buffer apply_gain os_name EventLoop s seg Hseg).
  unfold Player.stop_audio.
  destruct (is_playing s); unfold_player; simpl;
    (split; [exact Hseg|]); do 5 (split; [reflexivity|]);
    rewrite <- ?app_assoc; simpl;
    eexists; (split; [reflexivity|]); split; [reflexivity | | reflexivity | ];
    try discriminate; reflexivity.
Qed.

(** X12: from any state the application reaches with a buffer loaded and
    no callback waiting, Play followed by the end of the started thread and
    one turn of the main loop leaves the flag down and the Finished text on
    the status label, needing no Stop.  It does so whether [play] returned
    or raised: a failed playback shows no dialog, and when nothing was
    playing before, no kill command is issued either. *)
Theorem play_runs_to_finished evs seg o :
  let s := run evs init in
  audio_segment s = Some seg ->
  after_queue s = [] ->
  let s' := run [ClickPlay; ThreadEnd (next_tid s) o; LoopIdle] s in
  is_playing s' = false
  /\ label_status s' = STATUS_FINISHED
  /\ playback_state s' = Ended
  /\ after_queue s' = []
  /\ audio_segment s' = Some seg
  /\ exists t, trace s' = trace s ++ t
               /\ existsb is_dialog t = false
               /\ (is_playing s = false -> count_kills t = 0%nat).
Proof.
  intros s Hseg Hq s'. subst s'.
  pose proof (reachable_threads_fresh evs) as Hfresh. fold s in Hfresh.
  destruct (play_audio_outcome s seg Hseg)
    as (Ha & Hp & Hl & Hth & Hn & Hq1 & t & Ht & Hd & Hk).
  cbn [Player.run fold_left Player.step].
  set (s1 := play_audio EventLoop s) in *.
  rewrite Hth, (find_thread_new _ _ _ Hfresh).
  unfold_player. rewrite Hq1, Hq. cbn [app]. unfold_player.
  repeat match goal with |- _ /\ _ => split end; try reflexivity.
  - exact Ha.
  - exists (t ++ [(Background, APlay (apply_gain seg (volume_slider s)) o);
                  (Background, AWrite (W_is_playing false));
                  (Background, AAfter (ConfigStatus STATUS_FINISHED));
                  (EventLoop, AWrite (W_label_status STATUS_FINISHED))]).
    split; [|split].
    + rewrite Ht, <- !app_assoc. reflexivity.
    + rewrite existsb_app, Hd. reflexivity.
    + intros Hnp. rewrite (count_kills_app Buffer), (Hk Hnp). reflexivity.
Qed.

(** X13: when Play is pressed while an earlier thread is still live and
    that earlier thread then ends, its [finally] block lowers the flag
    although the thread just started is still live; a Stop pressed then
    finds the flag down and does nothing at all. *)
Theorem stale_thread_end_disables_stop evs seg tid audio o :
  let s := run evs init in
  audio_segment s = Some seg ->
  find_thread tid (threads s) = Some audio ->
  let s' := run [ClickPlay; ThreadEnd tid o] s in
  is_playing s' = false
  /\ In (next_tid s, apply_gain seg (volume_slider s)) (threads s')
  /\ step ClickStop s' = s'.
Proof.
  intros s Hseg Hfind s'. subst s'.
  pose proof (reachable_threads_fresh evs) as Hfresh. fold s in Hfresh.
  pose proof (find_thread_below _ _ _ _ Hfresh Hfind) as Hlt.
  destruct (play_audio_outcome s seg Hseg)
    as (Ha & Hp & Hl & Hth & Hn & Hq1 & _).
  cbn [Player.run fold_left Player.step].
  set (s1 := play_audio EventLoop s) in *.
  rewrite Hth, (find_thread_old _ _ _ _ Hfind).
  split; [reflexivity|]. split.
  - unfold_player. unfold drop_thread.
    apply filter_In. split; [apply in_or_app; right; now left|].
    simpl. apply negb_true_iff, Nat.eqb_neq. lia.
  - now apply (stop_audio_not_playing Buffer os_name).
Qed.

(** X14: the first Play after a successful load always starts its thread
    with gain 0 on the newly decoded buffer, wherever the slider stood
    before the load. *)
Theorem play_after_load_uses_gain_zero s file_path seg :
  file_path <> EmptyString ->
  from_file file_path = Ok seg ->
  let s' := run [ClickLoad file_path; ClickPlay] s in
  threads s' = threads s ++ [(next_tid s, apply_gain seg 0)]
  /\ volume_slider s' = 0
  /\ audio_segment s' = Some seg
  /\ is_playing s' = true.
Proof.
  intros Hne Hok s'. subst s'.
  cbn [Player.run fold_left Player.step].
  rewrite (load_file_ok Buffer from_file EventLoop s file_path seg Hne Hok).
  match goal with |- context [play_audio EventLoop ?x] => set (s0 := x) end.
  destruct (play_audio_outcome s0 seg eq_refl) as (Ha & Hp & _ & Hth & _).
  repeat split; [exact Hth | | exact Ha | exact Hp].
  rewrite (play_audio_with_track Buffer apply_gain os_name EventLoop s0 seg eq_refl).
  unfold Player.stop_audio. subst s0. unfold_player.
  now destruct (is_playing s).
Qed.

End Runs.

End RunFacts.

(** ** The volume label *)

Module VolumeFacts.

Import PyStr Player.







End VolumeFacts.

(** ** The run theorems at work on the concrete back end *)

Module MoreScenarios.

Import PyStr Player Demo.

Lemma basename_of_joined_witness :
  basename ("/home/user/Music" ++ String "/" "song.mp3")%string = Some "song.mp3"
  /\ basename ("C:\Users\user" ++ String "\" EmptyString)%string = Some EmptyString.
Proof.
  split.
  - apply (PyStrMore.basename_of_joined "/home/user/Music" "song.mp3").
    split; reflexivity.
  - apply (PyStrMore.basename_of_joined "C:\Users\user" EmptyString).
    split; reflexivity.
Defined.

Lemma basename_idempotent_witness :
  bare_name "other.wav" /\ basename "other.wav" = Some "other.wav".
Proof.
  apply (PyStrMore.basename_idempotent OTHER "other.wav"). reflexivity.
Defined.

Lemma status_never_ready_again_witness :
  let evs := [ClickLoad SONG; ClickPlay] in
  let later := [ClickStop; ClickLoad OTHER; ThreadEnd 0 Returned; LoopIdle] in
  playback_state (Demo.run (evs ++ later) start) <> Idle.
Proof.
  intros evs later.
  apply (RunFacts.status_never_ready_again Audio Demo.from_file Gained
           Demo.os_name evs later).
  vm_compute. discriminate.
Defined.

Lemma once_loaded_never_warns_witness :
  let evs := [ClickLoad MISSING; ClickPlay; ClickLoad EmptyString; ClickStop] in
  audio_segment (Demo.run evs loaded) <> None
  /\ exists t, trace (Demo.run evs loaded) = trace loaded ++ t
               /\ existsb is_warning t = false.
Proof.
  intros evs.
  apply (RunFacts.once_loaded_never_warns Audio Demo.from_file Gained
           Demo.os_name evs loaded).
  vm_compute. discriminate.
Defined.

(** [play] raises, the thread swallows it, the label still ends on Finished. *)
Lemma play_runs_to_finished_witness :
  let s := Demo.run [ClickLoad SONG] start in
  let s' := Demo.run [ClickPlay; ThreadEnd (next_tid s) (Raised "no player");
                      LoopIdle] s in
  is_playing s' = false
  /\ label_status s' = STATUS_FINISHED
  /\ playback_state s' = Ended.
Proof.
  destruct (RunFacts.play_runs_to_finished Audio Demo.from_file Gained
              Demo.os_name [ClickLoad SONG] (Decoded SONG)
              (Raised "no player") eq_refl eq_refl)
    as (Hp & Hl & Hs & _).
  split; [exact Hp|]. split; [exact Hl | exact Hs].
Defined.

(** Play twice; the first thread ends; Stop no longer stops the second. *)
Lemma stale_thread_end_disables_stop_witness :
  let s := Demo.run [ClickLoad SONG; Slide (-10); ClickPlay] start in
  let s' := Demo.run [ClickPlay; ThreadEnd 0 Returned] s in
  is_playing s' = false
  /\ In (next_tid s, Gained (Decoded SONG) (volume_slider s)) (threads s')
  /\ Demo.step ClickStop s' = s'.
Proof.
  exact (RunFacts.stale_thread_end_disables_stop Audio Demo.from_file Gained
           Demo.os_name [ClickLoad SONG; Slide (-10); ClickPlay]
           (Decoded SONG) 0%nat (Gained (Decoded SONG) (-10)) Returned
           eq_refl eq_refl).
Defined.

Lemma play_after_load_uses_gain_zero_witness :
  let s' := Demo.run [ClickLoad OTHER; ClickPlay] playing in
  threads s' = threads playing ++ [(next_tid playing, Gained (Decoded OTHER) 0)]
  /\ volume_slider s' = 0%Z.
Proof.
  destruct (RunFacts.play_after_load_uses_gain_zero Audio Demo.from_file
              Gained Demo.os_name playing OTHER (Decoded OTHER))
    as (Hth & Hv & _); [discriminate | reflexivity |].
  split; [exact Hth | exact Hv].
Defined.

End MoreScenarios.
